(** * rabbitpy.heartbeat: the connection-liveness checker

    A shallow embedding of [src/rabbitpy/heartbeat.py] (class [Checker]) and
    the properties its specification states about it.

    Conventions of the model.
    - Timestamps and durations are integers ([Z]) counted in ticks of one
      fixed resolution; [time.time()] reads the field [clock].  The code only
      adds, subtracts, doubles and compares times, so the resolution is
      immaterial; the scenarios below use seconds or milliseconds.  Rounding
      of Python floats is not modelled.
    - The objects the checker holds references to (the io object, the
      exception queue, the timer threads it starts) live next to it in one
      [World]; a method is a computation over that world.
    - Each method runs atomically, and the environment moves between method
      calls only: the callbacks of one timer chain never overlap, and
      [on_heartbeat] writes the one field a callback reads once.  The lock
      is visible through the log of [Action]s a method leaves behind.
    - [LOGGER] calls have no effect on the state and are left out. *)

From Stdlib Require Import ZArith List Bool Lia.
From stdpp Require Import base list.
Import ListNotations.

Local Open Scope Z_scope.

(** ** Data *)

(** [exceptions.ConnectionResetException(message)], with the message
    ['No heartbeat in {0} seconds'.format(age)] kept as the age it carries. *)
Inductive Message : Type :=
| No_heartbeat_in_seconds (age : Z).

Inductive Exception : Type :=
| ConnectionResetException (message : Message).

(** A started [threading.Timer(interval, self._check_for_heartbeat)]: it runs
    its callback once, [timer_interval] after the moment it was started. *)
Record Timer : Type := mkTimer {
  timer_interval : Z;
  timer_started : Z
}.

Definition due (t : Timer) : Z := timer_started t + timer_interval t.

(** The attributes of a [Checker] instance.  [_exceptions] and [_io] are
    references into the world; [_lock] shows in the action trace;
    [_heartbeat_timer] does not exist before the first timer is created. *)
Record Checker : Type := mkChecker {
  _interval : Z;
  _last_bytes : Z;
  _last_heartbeat : Z;
  _heartbeat_timer : option Timer
}.

Record World : Type := mkWorld {
  clock : Z;                     (* what time.time() returns now *)
  bytes_received : Z;            (* self._io.bytes_received *)
  exceptions : list Exception;   (* everything put on self._exceptions, oldest first *)
  armed : list Timer;            (* timers started and not yet fired *)
  self : Checker
}.

Definition MAX_MISSED_HEARTBEATS : Z := 2.

(** ** Effects *)

Inductive Field : Type := F_interval | F_last_bytes | F_last_heartbeat | F_heartbeat_timer.

Inductive Action : Type :=
| Acquire                 (* self._lock.acquire(True) returned *)
| Release                 (* self._lock.release() *)
| Assign (f : Field)      (* self.<f> = ... *)
| Put (e : Exception)     (* self._exceptions.put(e) *)
| TimerStart (t : Timer). (* threading.Timer(...).start() *)

(** State and writer: a computation reads and updates the world and logs
    what it did. *)
Definition M (A : Type) : Type := World -> A * World * list Action.

Definition ret {A} (a : A) : M A := fun w => (a, w, []).

Definition bind {A B} (m : M A) (k : A -> M B) : M B :=
  fun w =>
    let '(a, w1, l1) := m w in
    let '(b, w2, l2) := k a w1 in
    (b, w2, l1 ++ l2).

Notation "x <- m ;; k" := (bind m (fun x => k))
  (at level 100, m at next level, right associativity).
Notation "m ;; k" := (bind m (fun _ => k))
  (at level 100, right associativity).

Definition get {A} (f : World -> A) : M A := fun w => (f w, w, []).

Definition update_self (f : Checker -> Checker) (w : World) : World :=
  mkWorld (clock w) (bytes_received w) (exceptions w) (armed w) (f (self w)).

Definition assign (fld : Field) (f : Checker -> Checker) : M unit :=
  fun w => (tt, update_self f w, [Assign fld]).

Definition set_interval (v : Z) (c : Checker) : Checker :=
  mkChecker v (_last_bytes c) (_last_heartbeat c) (_heartbeat_timer c).
Definition set_last_bytes (v : Z) (c : Checker) : Checker :=
  mkChecker (_interval c) v (_last_heartbeat c) (_heartbeat_timer c).
Definition set_last_heartbeat (v : Z) (c : Checker) : Checker :=
  mkChecker (_interval c) (_last_bytes c) v (_heartbeat_timer c).
Definition set_heartbeat_timer (t : Timer) (c : Checker) : Checker :=
  mkChecker (_interval c) (_last_bytes c) (_last_heartbeat c) (Some t).

Definition lock_acquire : M unit := fun w => (tt, w, [Acquire]).
Definition lock_release : M unit := fun w => (tt, w, [Release]).

Definition time_time : M Z := get clock.

Definition queue_put (e : Exception) : M unit :=
  fun w =>
    (tt, mkWorld (clock w) (bytes_received w) (exceptions w ++ [e]) (armed w) (self w),
     [Put e]).

(** [threading.Timer(interval, callback)] followed by [.start()] on it. *)
Definition new_timer (interval : Z) : M Timer :=
  fun w => (mkTimer interval (clock w), w, []).

Definition timer_start (t : Timer) : M unit :=
  fun w =>
    (tt, mkWorld (clock w) (bytes_received w) (exceptions w) (armed w ++ [t]) (self w),
     [TimerStart t]).

(** ** The methods of [Checker] *)

(** [Checker.__init__(io, exception_queue)]: the fresh instance. *)
Definition __init__ : Checker :=
  {| _interval := 0; _last_bytes := 0; _last_heartbeat := 0;
     _heartbeat_timer := None |}.

Definition _start_heartbeat_timer : M unit :=
  i <- get (fun w => _interval (self w)) ;;
  t <- new_timer i ;;
  assign F_heartbeat_timer (set_heartbeat_timer t) ;;
  timer_start t.

Definition on_heartbeat : M unit :=
  lock_acquire ;;
  now <- time_time ;;
  assign F_last_heartbeat (set_last_heartbeat now) ;;
  lock_release.

(** [if self._interval:] is Python truthiness: a number other than zero. *)
Definition start (interval : Z) : M unit :=
  assign F_interval (set_interval interval) ;;
  i <- get (fun w => _interval (self w)) ;;
  if negb (i =? 0) then _start_heartbeat_timer else ret tt.

Definition _check_for_heartbeat : M unit :=
  received <- get bytes_received ;;
  last <- get (fun w => _last_bytes (self w)) ;;
  if last <? received then
    lock_acquire ;;
    received' <- get bytes_received ;;
    assign F_last_bytes (set_last_bytes received') ;;
    lock_release ;;
    _start_heartbeat_timer
  else
    now <- time_time ;;
    last_heartbeat <- get (fun w => _last_heartbeat (self w)) ;;
    let age := now - last_heartbeat in
    i <- get (fun w => _interval (self w)) ;;
    let threshold := i * MAX_MISSED_HEARTBEATS in
    if threshold <=? age then
      let message := No_heartbeat_in_seconds age in
      queue_put (ConnectionResetException message)
    else
      _start_heartbeat_timer.

(** Running a method for its effect on the world, and for what it logged. *)
Definition exec {A} (m : M A) (w : World) : World := snd (fst (m w)).
Definition actions {A} (m : M A) (w : World) : list Action := snd (m w).

(** The lock discipline, read off a log: the lock is taken only when free and
    released only when held, [_last_bytes] and [_last_heartbeat] are assigned
    only while it is held, and it is free again at the end. *)
Fixpoint guarded (held : bool) (l : list Action) : bool :=
  match l with
  | [] => negb held
  | Acquire :: l' => negb held && guarded true l'
  | Release :: l' => held && guarded false l'
  | Assign F_last_bytes :: l' => held && guarded held l'
  | Assign F_last_heartbeat :: l' => held && guarded held l'
  | _ :: l' => guarded held l'
  end.

Definition puts (l : list Action) : list Exception :=
  omap (fun a => match a with Put e => Some e | _ => None end) l.

Definition timer_starts (l : list Action) : list Timer :=
  omap (fun a => match a with TimerStart t => Some t | _ => None end) l.

(** ** The checker in its environment *)

(** What can happen to one checker: its owner calls [start], the frame
    decoder calls [on_heartbeat], the io layer counts more bytes, time
    passes, or one of the armed timers expires and runs its callback.  A
    timer runs its callback no earlier than it is due. *)
Inductive Event : Type :=
| Ev_start (interval : Z)
| Ev_on_heartbeat
| Ev_bytes (n : N)
| Ev_elapse (dt : N)
| Ev_fire (k : nat).

Definition advance (dt : Z) (w : World) : World :=
  mkWorld (clock w + dt) (bytes_received w) (exceptions w) (armed w) (self w).

Definition receive (n : Z) (w : World) : World :=
  mkWorld (clock w) (bytes_received w + n) (exceptions w) (armed w) (self w).

Definition disarm (k : nat) (w : World) : World :=
  mkWorld (clock w) (bytes_received w) (exceptions w) (delete k (armed w)) (self w).

Definition step (w : World) (ev : Event) : option World :=
  match ev with
  | Ev_start interval => Some (exec (start interval) w)
  | Ev_on_heartbeat => Some (exec on_heartbeat w)
  | Ev_bytes n => Some (receive (Z.of_N n) w)
  | Ev_elapse dt => Some (advance (Z.of_N dt) w)
  | Ev_fire k =>
      match armed w !! k with
      | Some t =>
          if due t <=? clock w
          then Some (exec _check_for_heartbeat (disarm k w))
          else None
      | None => None
      end
  end.

Fixpoint run (w : World) (evs : list Event) : option World :=
  match evs with
  | [] => Some w
  | ev :: evs' =>
      match step w ev with
      | Some w' => run w' evs'
      | None => None
      end
  end.

(** A checker just created, at time [now], on an io object that has counted
    [received] bytes so far, with an empty exception queue. *)
Definition created (now received : Z) : World :=
  mkWorld now received [] [] __init__.

Definition is_start (ev : Event) : bool :=
  match ev with Ev_start _ => true | _ => false end.

Definition is_heartbeat (ev : Event) : bool :=
  match ev with Ev_on_heartbeat => true | _ => false end.

Definition starts (evs : list Event) : nat := length (List.filter is_start evs).

(** ** Observations on runs *)

(** Timers that may still fire plus failures already reported. *)
Definition budget (w : World) : nat :=
  (length (armed w) + length (exceptions w))%nat.

(** Only a [start] with a truthy interval adds a timer from outside. *)
Definition arming (ev : Event) : nat :=
  match ev with
  | Ev_start i => if i =? 0 then 0%nat else 1%nat
  | _ => 0%nat
  end.

Fixpoint armings (evs : list Event) : nat :=
  match evs with
  | [] => 0%nat
  | ev :: evs' => (arming ev + armings evs')%nat
  end.

(** The first timer of a fresh checker on a silent connection fires and
    reports a failure whose age is the clock reading at that moment. *)
Definition fails_at_first_firing (now interval : Z) (dt : N) : Prop :=
  exists w,
    run (created now 0) [Ev_start interval; Ev_elapse dt; Ev_fire 0%nat] = Some w /\
    exceptions w =
      [ConnectionResetException (No_heartbeat_in_seconds (now + Z.of_N dt))] /\
    armed w = [].

(** A callback that leaves both the queue and the armed timers alone. *)
Definition callback_is_noop (w : World) : Prop :=
  exceptions (exec _check_for_heartbeat w) = exceptions w /\
  armed (exec _check_for_heartbeat w) = armed w.

(** ** Reading a list of events *)

Definition is_fire (ev : Event) : bool :=
  match ev with Ev_fire _ => true | _ => false end.

(** The time that passes during a list of events. *)
Fixpoint elapsed (evs : list Event) : Z :=
  match evs with
  | [] => 0
  | Ev_elapse dt :: evs' => Z.of_N dt + elapsed evs'
  | _ :: evs' => elapsed evs'
  end.

(** The bytes the io layer counts during a list of events. *)
Fixpoint arrived (evs : list Event) : Z :=
  match evs with
  | [] => 0
  | Ev_bytes n :: evs' => Z.of_N n + arrived evs'
  | _ :: evs' => arrived evs'
  end.

(** The age a failure on the queue carries. *)
Definition age_of (e : Exception) : Z :=
  match e with ConnectionResetException (No_heartbeat_in_seconds a) => a end.

(** The attribute [_heartbeat_timer] refers to the armed timer, if there is
    one, and that timer was started in the past with the stored interval. *)
Definition handle_on_armed (w : World) : Prop :=
  armed w = [] \/
  exists t, armed w = [t] /\ _heartbeat_timer (self w) = Some t /\
            timer_interval t = _interval (self w) /\ timer_started t <= clock w.

(** Calls that may block or run foreign code, [put] on the queue and the
    start of a timer thread, are made only while the lock is free. *)
Fixpoint calls_outside_lock (held : bool) (l : list Action) : bool :=
  match l with
  | [] => true
  | Acquire :: l' => calls_outside_lock true l'
  | Release :: l' => calls_outside_lock false l'
  | Put _ :: l' => negb held && calls_outside_lock held l'
  | TimerStart _ :: l' => negb held && calls_outside_lock held l'
  | Assign _ :: l' => calls_outside_lock held l'
  end.

(** * Properties *)

(** ** The methods, one call at a time *)

Lemma exec_start_heartbeat_timer w :
  exec _start_heartbeat_timer w =
  let t := mkTimer (_interval (self w)) (clock w) in
  mkWorld (clock w) (bytes_received w) (exceptions w) (armed w ++ [t])
          (set_heartbeat_timer t (self w)).
Proof. reflexivity. Qed.

Lemma exec_on_heartbeat w :
  exec on_heartbeat w = update_self (set_last_heartbeat (clock w)) w.
Proof. reflexivity. Qed.

(** The two ways through [start]. *)
Lemma start_zero w :
  start 0 w = (tt, update_self (set_interval 0) w, [Assign F_interval]).
Proof. reflexivity. Qed.

Lemma start_nonzero i w :
  i <> 0 ->
  start i w =
  let t := mkTimer i (clock w) in
  (tt,
   mkWorld (clock w) (bytes_received w) (exceptions w) (armed w ++ [t])
           (set_heartbeat_timer t (set_interval i (self w))),
   [Assign F_interval; Assign F_heartbeat_timer; TimerStart t]).
Proof.
  intros Hi. unfold start, bind, assign, get. cbn.
  destruct (Z.eqb_spec i 0) as [->|_]; [contradiction|]. reflexivity.
Qed.

Lemma exec_start_zero w :
  exec (start 0) w = update_self (set_interval 0) w.
Proof. reflexivity. Qed.

Lemma exec_start_nonzero i w :
  i <> 0 ->
  exec (start i) w =
  let t := mkTimer i (clock w) in
  mkWorld (clock w) (bytes_received w) (exceptions w) (armed w ++ [t])
          (set_heartbeat_timer t (set_interval i (self w))).
Proof. intros Hi. unfold exec. now rewrite (start_nonzero i w Hi). Qed.

(** The three ways through [_check_for_heartbeat]. *)
Lemma check_traffic w :
  _last_bytes (self w) < bytes_received w ->
  _check_for_heartbeat w =
  let t := mkTimer (_interval (self w)) (clock w) in
  (tt,
   mkWorld (clock w) (bytes_received w) (exceptions w) (armed w ++ [t])
           (set_heartbeat_timer t (set_last_bytes (bytes_received w) (self w))),
   [Acquire; Assign F_last_bytes; Release; Assign F_heartbeat_timer; TimerStart t]).
Proof.
  intros H. unfold _check_for_heartbeat, bind, get. cbn.
  destruct (Z.ltb_spec (_last_bytes (self w)) (bytes_received w)); [|lia].
  reflexivity.
Qed.

Lemma check_silent_expired w :
  bytes_received w <= _last_bytes (self w) ->
  _interval (self w) * MAX_MISSED_HEARTBEATS <= clock w - _last_heartbeat (self w) ->
  _check_for_heartbeat w =
  let e := ConnectionResetException
             (No_heartbeat_in_seconds (clock w - _last_heartbeat (self w))) in
  (tt,
   mkWorld (clock w) (bytes_received w) (exceptions w ++ [e]) (armed w) (self w),
   [Put e]).
Proof.
  intros Hb Ha. unfold _check_for_heartbeat, bind, get, time_time. cbn.
  destruct (Z.ltb_spec (_last_bytes (self w)) (bytes_received w)); [lia|].
  cbn.
  destruct (Z.leb_spec (_interval (self w) * MAX_MISSED_HEARTBEATS)
                       (clock w - _last_heartbeat (self w))); [|lia].
  reflexivity.
Qed.

Lemma check_silent_alive w :
  bytes_received w <= _last_bytes (self w) ->
  clock w - _last_heartbeat (self w) < _interval (self w) * MAX_MISSED_HEARTBEATS ->
  _check_for_heartbeat w =
  let t := mkTimer (_interval (self w)) (clock w) in
  (tt,
   mkWorld (clock w) (bytes_received w) (exceptions w) (armed w ++ [t])
           (set_heartbeat_timer t (self w)),
   [Assign F_heartbeat_timer; TimerStart t]).
Proof.
  intros Hb Ha. unfold _check_for_heartbeat, bind, get, time_time. cbn.
  destruct (Z.ltb_spec (_last_bytes (self w)) (bytes_received w)); [lia|].
  cbn.
  destruct (Z.leb_spec (_interval (self w) * MAX_MISSED_HEARTBEATS)
                       (clock w - _last_heartbeat (self w))); [lia|].
  reflexivity.
Qed.

(** Case split along the three ways, rewriting the callback away. *)
Ltac check_cases w :=
  let Hb := fresh "Hb" in
  let Ha := fresh "Ha" in
  unfold exec, actions;
  destruct (Z.lt_ge_cases (_last_bytes (self w)) (bytes_received w)) as [Hb|Hb];
  [ rewrite (check_traffic w Hb)
  | destruct (Z.le_gt_cases (_interval (self w) * MAX_MISSED_HEARTBEATS)
                            (clock w - _last_heartbeat (self w))) as [Ha|Ha];
    [ rewrite (check_silent_expired w Hb Ha)
    | rewrite (check_silent_alive w Hb Ha) ] ].

(** What one run of the callback leaves behind, whichever way it went. *)
Lemma check_rearms_or_fails w :
  let t := mkTimer (_interval (self w)) (clock w) in
  let age := clock w - _last_heartbeat (self w) in
  let e := ConnectionResetException (No_heartbeat_in_seconds age) in
  let w' := exec _check_for_heartbeat w in
  let l := actions _check_for_heartbeat w in
  (armed w' = armed w ++ [t] /\ exceptions w' = exceptions w /\
   timer_starts l = [t] /\ puts l = []) \/
  (armed w' = armed w /\ exceptions w' = exceptions w ++ [e] /\
   timer_starts l = [] /\ puts l = [e]).
Proof. cbn zeta. check_cases w; cbn; auto 6. Qed.

Lemma check_keeps_clock w : clock (exec _check_for_heartbeat w) = clock w.
Proof. check_cases w; reflexivity. Qed.

Lemma check_keeps_last_heartbeat w :
  _last_heartbeat (self (exec _check_for_heartbeat w)) = _last_heartbeat (self w).
Proof. check_cases w; reflexivity. Qed.

(** Every method keeps the lock discipline. *)
Lemma methods_guarded i w :
  guarded false (actions on_heartbeat w) = true /\
  guarded false (actions (start i) w) = true /\
  guarded false (actions _check_for_heartbeat w) = true.
Proof.
  split; [reflexivity|]. split.
  - unfold actions. destruct (Z.eq_dec i 0) as [->|Hi].
    + now rewrite start_zero.
    + now rewrite (start_nonzero i w Hi).
  - check_cases w; reflexivity.
Qed.

(** C2.  A check that reads a byte counter strictly above [_last_bytes]
    puts nothing on the queue, however old [_last_heartbeat] is; it stores
    the counter it read in [_last_bytes], holding the lock while it does,
    and starts exactly one timer, due one interval from now. *)
Theorem C2_traffic_rearms_without_failure (w : World) :
  _last_bytes (self w) < bytes_received w ->
  let w' := exec _check_for_heartbeat w in
  let l := actions _check_for_heartbeat w in
  exceptions w' = exceptions w /\ puts l = [] /\
  _last_bytes (self w') = bytes_received w /\
  guarded false l = true /\
  (exists t, armed w' = armed w ++ [t] /\ timer_starts l = [t] /\
             due t = clock w + _interval (self w)).
Proof.
  intros Hb w' l. subst w' l. unfold exec, actions.
  rewrite (check_traffic w Hb). cbn.
  repeat split. eexists. repeat split.
Qed.

Lemma C2_traffic_rearms_witness :
  let w := mkWorld 1700000004 100 [] [] (mkChecker 2 0 0 None) in
  exceptions (exec _check_for_heartbeat w) = [] /\
  _last_bytes (self (exec _check_for_heartbeat w)) = 100 /\
  armed (exec _check_for_heartbeat w) = [mkTimer 2 1700000004].
Proof.
  intros w.
  destruct (C2_traffic_rearms_without_failure w) as (He & _ & Hl & _ & t & Ht & Hs & _).
  - reflexivity.
  - split; [exact He|]. split; [exact Hl|]. reflexivity.
Defined.

(** C3.  A check that reads no new bytes puts a failure on the queue exactly
    when [age = now - _last_heartbeat] has reached
    [_interval * MAX_MISSED_HEARTBEATS], the limit being 2.  What it puts is
    one [ConnectionResetException] carrying that age, and then no timer is
    started; otherwise exactly one timer is started and nothing is put. *)
Theorem C3_silent_check_fails_iff_expired (w : World) :
  bytes_received w <= _last_bytes (self w) ->
  let age := clock w - _last_heartbeat (self w) in
  let threshold := _interval (self w) * MAX_MISSED_HEARTBEATS in
  let w' := exec _check_for_heartbeat w in
  let l := actions _check_for_heartbeat w in
  MAX_MISSED_HEARTBEATS = 2 /\
  (puts l <> [] <-> threshold <= age) /\
  (threshold <= age ->
   puts l = [ConnectionResetException (No_heartbeat_in_seconds age)] /\
   exceptions w' = exceptions w ++ [ConnectionResetException (No_heartbeat_in_seconds age)] /\
   timer_starts l = [] /\ armed w' = armed w) /\
  (age < threshold ->
   puts l = [] /\ exceptions w' = exceptions w /\
   exists t, timer_starts l = [t] /\ armed w' = armed w ++ [t] /\
             due t = clock w + _interval (self w)).
Proof.
  intros Hb age threshold w' l. subst age threshold w' l.
  split; [reflexivity|].
  destruct (Z.le_gt_cases (_interval (self w) * MAX_MISSED_HEARTBEATS)
                          (clock w - _last_heartbeat (self w))) as [Ha|Ha].
  - unfold exec, actions. rewrite (check_silent_expired w Hb Ha). cbn.
    split; [split; [intros _; exact Ha | discriminate]|].
    split; [auto | intros Hlt; lia].
  - unfold exec, actions. rewrite (check_silent_alive w Hb Ha). cbn.
    split; [split; [congruence | intros Hle; lia]|].
    split; [intros Hle; lia|].
    intros _. repeat split. eexists. repeat split.
Qed.

Lemma C3_silent_check_witness :
  let w := mkWorld 1004 0 [] [] (mkChecker 2 0 1000 None) in
  exceptions (exec _check_for_heartbeat w) =
    [ConnectionResetException (No_heartbeat_in_seconds 4)] /\
  armed (exec _check_for_heartbeat w) = [].
Proof.
  intros w.
  destruct (C3_silent_check_fails_iff_expired w) as (_ & _ & Hfail & _).
  - vm_compute. discriminate.
  - destruct Hfail as (_ & He & _ & Ha).
    + vm_compute. discriminate.
    + split; [exact He | exact Ha].
Defined.

(** ** Runs of the checker in its environment *)

Lemma run_app w evs1 evs2 :
  run w (evs1 ++ evs2) =
  match run w evs1 with Some w1 => run w1 evs2 | None => None end.
Proof.
  revert w. induction evs1 as [|ev evs1 IH]; intros w; cbn; [reflexivity|].
  destruct (step w ev); [apply IH | reflexivity].
Qed.

Lemma run_snoc w evs ev w' :
  run w (evs ++ [ev]) = Some w' ->
  exists w1, run w evs = Some w1 /\ step w1 ev = Some w'.
Proof.
  rewrite run_app. destruct (run w evs) as [w1|]; [|discriminate].
  cbn. destruct (step w1 ev) as [w2|] eqn:Hs; [|discriminate].
  intros [= <-]. eauto.
Qed.

(** An invariant of single steps is an invariant of runs. *)
Lemma run_invariant (P : World -> Prop) (ok : Event -> bool) :
  (forall w ev w', ok ev = true -> P w -> step w ev = Some w' -> P w') ->
  forall evs w w', forallb ok evs = true -> P w -> run w evs = Some w' -> P w'.
Proof.
  intros Hstep. induction evs as [|ev evs IH]; intros w w' Hok HP Hrun; cbn in *.
  - now injection Hrun as <-.
  - apply andb_prop in Hok as [Hev Hevs].
    destruct (step w ev) as [w1|] eqn:Hs; [|discriminate].
    apply (IH w1 w' Hevs); [|exact Hrun].
    exact (Hstep w ev w1 Hev HP Hs).
Qed.

Lemma step_fire_inv w k w' :
  step w (Ev_fire k) = Some w' ->
  exists t, armed w !! k = Some t /\ due t <= clock w /\
            w' = exec _check_for_heartbeat (disarm k w).
Proof.
  cbn. destruct (armed w !! k) as [t|] eqn:Hk; [|discriminate].
  destruct (Z.leb_spec (due t) (clock w)); [|discriminate].
  intros [= <-]. eauto.
Qed.

Lemma step_budget w ev w' :
  step w ev = Some w' -> budget w' = (budget w + arming ev)%nat.
Proof.
  destruct ev as [i| |n|dt|k]; cbn [arming].
  - intros [= <-]. destruct (Z.eqb_spec i 0) as [->|Hi].
    + rewrite exec_start_zero. unfold budget. cbn. lia.
    + rewrite (exec_start_nonzero i w Hi). unfold budget. cbn.
      rewrite length_app. cbn. lia.
  - intros [= <-]. unfold budget. cbn. lia.
  - intros [= <-]. unfold budget. cbn. lia.
  - intros [= <-]. unfold budget. cbn. lia.
  - intros Hs. apply step_fire_inv in Hs as (t & Hk & _ & ->).
    assert (Hlen : length (armed (disarm k w)) = (length (armed w) - 1)%nat).
    { cbn. apply length_delete. eauto. }
    apply lookup_lt_Some in Hk.
    unfold budget.
    destruct (check_rearms_or_fails (disarm k w)) as [(Ha & He & _)|(Ha & He & _)];
      cbn zeta in Ha, He; rewrite Ha, He, ?length_app, Hlen; cbn; lia.
Qed.

Lemma armings_le_starts evs : (armings evs <= starts evs)%nat.
Proof.
  unfold starts. induction evs as [|ev evs IH]; cbn; [lia|].
  destruct ev as [i| | | |]; cbn; try lia.
  destruct (i =? 0); cbn; lia.
Qed.

Lemma run_budget evs : forall w w',
  run w evs = Some w' -> budget w' = (budget w + armings evs)%nat.
Proof.
  induction evs as [|ev evs IH]; intros w w' Hrun; cbn in *.
  - injection Hrun as <-. lia.
  - destruct (step w ev) as [w1|] eqn:Hs; [|discriminate].
    rewrite (IH _ _ Hrun), (step_budget _ _ _ Hs). lia.
Qed.

(** The queue is only ever appended to. *)
Lemma step_exceptions_grow w ev w' :
  step w ev = Some w' -> exceptions w `prefix_of` exceptions w'.
Proof.
  destruct ev as [i| |n|dt|k].
  - intros [= <-]. destruct (Z.eqb_spec i 0) as [->|Hi].
    + rewrite exec_start_zero. reflexivity.
    + rewrite (exec_start_nonzero i w Hi). reflexivity.
  - intros [= <-]. reflexivity.
  - intros [= <-]. reflexivity.
  - intros [= <-]. reflexivity.
  - intros Hs. apply step_fire_inv in Hs as (t & _ & _ & ->).
    destruct (check_rearms_or_fails (disarm k w)) as [(_ & He & _)|(_ & He & _)];
      cbn zeta in He; rewrite He; cbn.
    + reflexivity.
    + now apply prefix_app_r.
Qed.

Lemma run_exceptions_grow evs : forall w w',
  run w evs = Some w' -> exceptions w `prefix_of` exceptions w'.
Proof.
  induction evs as [|ev evs IH]; intros w w' Hrun; cbn in *.
  - now injection Hrun as <-.
  - destruct (step w ev) as [w1|] eqn:Hs; [|discriminate].
    etransitivity; [eapply step_exceptions_grow; eassumption | eauto].
Qed.

Lemma starts_app evs1 evs2 :
  starts (evs1 ++ evs2) = (starts evs1 + starts evs2)%nat.
Proof. unfold starts. now rewrite List.filter_app, length_app. Qed.

(** A checker started at most once never has more than one timer or failure
    to its name. *)
Lemma single_start_budget now received evs w :
  (starts evs <= 1)%nat ->
  run (created now received) evs = Some w ->
  (budget w <= 1)%nat.
Proof.
  intros Hs Hrun. rewrite (run_budget _ _ _ Hrun).
  pose proof (armings_le_starts evs). unfold budget. cbn. lia.
Qed.

(** C4 as amended.  In every run of one checker that is started at most once, whatever
    the order of heartbeats, byte-counter changes, clock advances and timer
    firings, the queue never holds more than one failure; once a failure is
    there, the rest of the run adds nothing to it. *)
Theorem C4_at_most_one_failure (now received : Z) (evs : list Event) (w : World) :
  (starts evs <= 1)%nat ->
  run (created now received) evs = Some w ->
  (length (exceptions w) <= 1)%nat /\
  (forall evs1 evs2 w1,
      evs = evs1 ++ evs2 ->
      run (created now received) evs1 = Some w1 ->
      exceptions w1 <> [] ->
      exceptions w = exceptions w1).
Proof.
  intros Hs Hrun.
  pose proof (single_start_budget _ _ _ _ Hs Hrun) as Hb. unfold budget in Hb.
  split; [lia|].
  intros evs1 evs2 w1 -> Hrun1 Hne.
  rewrite run_app, Hrun1 in Hrun.
  apply run_exceptions_grow in Hrun. symmetry.
  apply prefix_length_eq; [exact Hrun|].
  destruct (exceptions w1); [contradiction | cbn; lia].
Qed.

Lemma C4_at_most_one_failure_witness :
  let evs := [Ev_start 2; Ev_elapse 2; Ev_fire 0%nat; Ev_elapse 60;
              Ev_on_heartbeat; Ev_bytes 10] in
  exists w, run (created 1700000000 0) evs = Some w /\
            (length (exceptions w) <= 1)%nat.
Proof.
  intros evs.
  destruct (run (created 1700000000 0) evs) as [w|] eqn:Hrun;
    [|vm_compute in Hrun; discriminate].
  exists w. split; [reflexivity|].
  apply (C4_at_most_one_failure 1700000000 0 evs w); [|exact Hrun].
  vm_compute. apply le_n.
Defined.

(** C4 as stated fails when [start] is called twice: each call arms a timer
    of its own, nothing in [start] looks for one already armed, and on a
    silent connection both callbacks put a failure on the queue. *)
Lemma C4_counterexample :
  exists w,
    run (created 1700000000 0)
        [Ev_start 2; Ev_start 2; Ev_elapse 2; Ev_fire 0%nat; Ev_fire 0%nat] = Some w /\
    exceptions w =
      [ConnectionResetException (No_heartbeat_in_seconds 1700000002);
       ConnectionResetException (No_heartbeat_in_seconds 1700000002)] /\
    ~ (length (exceptions w) <= 1)%nat.
Proof.
  eexists. split; [vm_compute; reflexivity|]. split; [reflexivity|].
  cbn. lia.
Qed.



Lemma starts_zero_forallb evs :
  starts evs = 0%nat -> forallb (fun ev => negb (is_start ev)) evs = true.
Proof.
  unfold starts. induction evs as [|ev evs IH]; cbn; [reflexivity|].
  destruct (is_start ev); cbn; [discriminate | exact IH].
Qed.

(** With no timer armed and no [start], nothing can fire. *)
Lemma idle_step w ev w' :
  negb (is_start ev) = true ->
  armed w = [] /\ exceptions w = [] ->
  step w ev = Some w' ->
  armed w' = [] /\ exceptions w' = [].
Proof.
  intros Hev [Ha He]. destruct ev as [i| |n|dt|k]; try discriminate.
  - intros [= <-]. cbn. auto.
  - intros [= <-]. cbn. auto.
  - intros [= <-]. cbn. auto.
  - cbn. rewrite Ha. discriminate.
Qed.

(** C6.  For a non-negative interval, [start] stores the interval, and
    starts a timer, due one interval from now, exactly when the interval is
    positive; it puts nothing on the queue.  After [start(0)] on a fresh
    checker no timer is armed and no failure is on the queue, however the
    run goes on and however much time passes. *)
Theorem C6_start_arms_iff_positive
    (i : Z) (w0 : World) (now received : Z) (evs : list Event) (w : World) :
  0 <= i ->
  starts evs = 0%nat ->
  run (created now received) (Ev_start 0 :: evs) = Some w ->
  let w0' := exec (start i) w0 in
  let l := actions (start i) w0 in
  (_interval (self w0') = i /\
   exceptions w0' = exceptions w0 /\
   (0 < i <-> timer_starts l <> []) /\
   (0 < i -> exists t, timer_starts l = [t] /\ armed w0' = armed w0 ++ [t] /\
                       due t = clock w0 + i) /\
   (i = 0 -> timer_starts l = [] /\ armed w0' = armed w0)) /\
  (armed w = [] /\ exceptions w = []).
Proof.
  intros Hi Hs Hrun. cbn zeta. split.
  - unfold exec, actions. destruct (Z.eq_dec i 0) as [->|Hne].
    + rewrite start_zero. cbn. repeat split; try lia; try congruence.
    + rewrite (start_nonzero i w0 Hne). cbn. repeat split; try lia; try congruence.
      intros _. eexists. repeat split.
  - change (run (exec (start 0) (created now received)) evs = Some w) in Hrun.
    apply (run_invariant (fun w => armed w = [] /\ exceptions w = [])
                         (fun ev => negb (is_start ev)) idle_step evs
                         (exec (start 0) (created now received)) w
                         (starts_zero_forallb evs Hs)); [|exact Hrun].
    rewrite exec_start_zero. cbn. auto.
Qed.

Lemma C6_start_witness :
  let w0 := created 1700000000 0 in
  let evs := [Ev_elapse 3600; Ev_on_heartbeat; Ev_elapse 86400] in
  armed (exec (start 5) w0) = [mkTimer 5 1700000000] /\
  exists w, run w0 (Ev_start 0 :: evs) = Some w /\ armed w = [] /\ exceptions w = [].
Proof.
  intros w0 evs.
  destruct (run w0 (Ev_start 0 :: evs)) as [w|] eqn:Hrun;
    [|vm_compute in Hrun; discriminate].
  destruct (C6_start_arms_iff_positive 5 w0 1700000000 0 evs w) as [_ Hidle].
  - lia.
  - reflexivity.
  - exact Hrun.
  - split; [reflexivity|]. exists w. split; [reflexivity | exact Hidle].
Defined.

(** ** The heartbeat timestamp *)

Lemma step_last_heartbeat w ev w' :
  _last_heartbeat (self w) <= clock w ->
  step w ev = Some w' ->
  _last_heartbeat (self w) <= _last_heartbeat (self w') /\
  _last_heartbeat (self w') <= clock w'.
Proof.
  intros Hinv. destruct ev as [i| |n|dt|k].
  - intros [= <-]. destruct (Z.eq_dec i 0) as [->|Hi].
    + rewrite exec_start_zero. cbn. lia.
    + rewrite (exec_start_nonzero i w Hi). cbn. lia.
  - intros [= <-]. rewrite exec_on_heartbeat. cbn. lia.
  - intros [= <-]. cbn. lia.
  - intros [= <-]. cbn. lia.
  - intros Hs. apply step_fire_inv in Hs as (t & _ & _ & ->).
    rewrite check_keeps_last_heartbeat, check_keeps_clock. cbn. lia.
Qed.

Lemma last_heartbeat_in_the_past now received evs w :
  0 <= now ->
  run (created now received) evs = Some w ->
  _last_heartbeat (self w) <= clock w.
Proof.
  intros Hnow Hrun.
  apply (run_invariant (fun w => _last_heartbeat (self w) <= clock w)
                       (fun _ => true)) with (evs := evs) (w := created now received);
    [ | | exact Hnow | exact Hrun].
  - intros w1 ev w2 _ Hinv Hs. now apply (step_last_heartbeat w1 ev w2).
  - clear Hrun. induction evs as [|ev evs IH]; [reflexivity | exact IH].
Qed.

(** C7.  [on_heartbeat] sets [_last_heartbeat] to the current time while it
    holds the lock, puts nothing on the queue and changes nothing else.  On a
    clock that reads no earlier than the epoch and never runs backwards,
    [_last_heartbeat] never decreases, whatever the checker goes through. *)
Theorem C7_on_heartbeat_records_now
    (w0 : World) (now received : Z) (evs : list Event) (w : World)
    (ev : Event) (w' : World) :
  0 <= now ->
  run (created now received) evs = Some w ->
  step w ev = Some w' ->
  (let w0' := exec on_heartbeat w0 in
   let l := actions on_heartbeat w0 in
   _last_heartbeat (self w0') = clock w0 /\
   l = [Acquire; Assign F_last_heartbeat; Release] /\ guarded false l = true /\
   puts l = [] /\ exceptions w0' = exceptions w0 /\
   timer_starts l = [] /\ armed w0' = armed w0 /\
   clock w0' = clock w0 /\ bytes_received w0' = bytes_received w0 /\
   _interval (self w0') = _interval (self w0) /\
   _last_bytes (self w0') = _last_bytes (self w0) /\
   _heartbeat_timer (self w0') = _heartbeat_timer (self w0)) /\
  _last_heartbeat (self w) <= _last_heartbeat (self w').
Proof.
  intros Hnow Hrun Hs. split.
  - cbn. repeat split.
  - apply (step_last_heartbeat w ev w'); [|exact Hs].
    exact (last_heartbeat_in_the_past now received evs w Hnow Hrun).
Qed.

Lemma C7_on_heartbeat_witness :
  let evs := [Ev_start 2; Ev_elapse 1; Ev_on_heartbeat; Ev_elapse 1] in
  exists w w',
    run (created 1700000000 0) evs = Some w /\
    step w Ev_on_heartbeat = Some w' /\
    _last_heartbeat (self w) <= _last_heartbeat (self w').
Proof.
  intros evs.
  destruct (run (created 1700000000 0) evs) as [w|] eqn:Hrun;
    [|vm_compute in Hrun; discriminate].
  exists w, (exec on_heartbeat w). split; [reflexivity|]. split; [reflexivity|].
  apply (C7_on_heartbeat_records_now w 1700000000 0 evs w Ev_on_heartbeat).
  - lia.
  - exact Hrun.
  - reflexivity.
Defined.

(** ** A checker that never hears a heartbeat *)

Lemma step_keeps_epoch w ev w' :
  negb (is_heartbeat ev) = true ->
  _last_heartbeat (self w) = 0 ->
  step w ev = Some w' ->
  _last_heartbeat (self w') = 0.
Proof.
  intros Hev H0. destruct ev as [i| |n|dt|k]; try discriminate.
  - intros [= <-]. destruct (Z.eq_dec i 0) as [->|Hi].
    + now rewrite exec_start_zero.
    + now rewrite (exec_start_nonzero i w Hi).
  - now intros [= <-].
  - now intros [= <-].
  - intros Hs. apply step_fire_inv in Hs as (t & _ & _ & ->).
    now rewrite check_keeps_last_heartbeat.
Qed.

Lemma first_firing now interval dt :
  interval <> 0 ->
  interval <= Z.of_N dt ->
  run (created now 0) [Ev_start interval; Ev_elapse dt; Ev_fire 0%nat] =
  Some (exec _check_for_heartbeat
          (mkWorld (now + Z.of_N dt) 0 [] []
                   (mkChecker interval 0 0 (Some (mkTimer interval now))))).
Proof.
  intros Hi Hdt. unfold run, step.
  rewrite (exec_start_nonzero interval _ Hi). cbn -[_check_for_heartbeat Z.add Z.leb].
  unfold due. cbn -[_check_for_heartbeat Z.add Z.leb].
  destruct (Z.leb_spec (now + interval) (now + Z.of_N dt)); [reflexivity | lia].
Qed.

Lemma first_firing_outcome now interval dt :
  0 < interval ->
  interval <= Z.of_N dt ->
  fails_at_first_firing now interval dt <-> 2 * interval <= now + Z.of_N dt.
Proof.
  intros Hi Hdt. unfold fails_at_first_firing.
  rewrite (first_firing now interval dt) by lia.
  set (w1 := mkWorld (now + Z.of_N dt) 0 [] []
                     (mkChecker interval 0 0 (Some (mkTimer interval now)))).
  destruct (Z.le_gt_cases (2 * interval) (now + Z.of_N dt)) as [Hle|Hgt].
  - split; [intros _; exact Hle|]. intros _.
    eexists. split; [reflexivity|]. unfold exec.
    rewrite (check_silent_expired w1) by (cbn; unfold MAX_MISSED_HEARTBEATS; lia).
    cbn. rewrite Z.sub_0_r. split; reflexivity.
  - split; [|lia]. intros (w & [= <-] & He & _). exfalso. revert He. unfold exec.
    rewrite (check_silent_alive w1) by (cbn; unfold MAX_MISSED_HEARTBEATS; lia).
    cbn. discriminate.
Qed.

(** C10 as amended.  With no [on_heartbeat] call so far [_last_heartbeat] is
    still 0, so a check that sees no new bytes computes an age equal to the
    clock reading itself and, when it fails, reports that reading.  For a
    positive interval the first timer firing of a fresh, silent checker
    fails exactly when the clock then reads at least twice the interval. *)
Theorem C10_epoch_age_at_first_check
    (now received : Z) (evs : list Event) (w : World) (interval : Z) (dt : N) :
  forallb (fun ev => negb (is_heartbeat ev)) evs = true ->
  run (created now received) evs = Some w ->
  bytes_received w <= _last_bytes (self w) ->
  0 < interval ->
  interval <= Z.of_N dt ->
  _last_heartbeat (self w) = 0 /\
  (let l := actions _check_for_heartbeat w in
   (_interval (self w) * 2 <= clock w ->
    puts l = [ConnectionResetException (No_heartbeat_in_seconds (clock w))]) /\
   (clock w < _interval (self w) * 2 -> puts l = [])) /\
  (fails_at_first_firing now interval dt <-> 2 * interval <= now + Z.of_N dt).
Proof.
  intros Hev Hrun Hb Hi Hdt.
  assert (H0 : _last_heartbeat (self w) = 0).
  { apply (run_invariant (fun w => _last_heartbeat (self w) = 0)
                         (fun ev => negb (is_heartbeat ev)) step_keeps_epoch
                         evs (created now received) w Hev); [reflexivity | exact Hrun]. }
  split; [exact H0|]. split; [|exact (first_firing_outcome now interval dt Hi Hdt)].
  cbn zeta. unfold actions. split; intros Hc.
  - rewrite (check_silent_expired w Hb) by (unfold MAX_MISSED_HEARTBEATS; lia).
    cbn. now rewrite H0, Z.sub_0_r.
  - rewrite (check_silent_alive w Hb) by (unfold MAX_MISSED_HEARTBEATS; lia).
    reflexivity.
Qed.

Lemma C10_epoch_age_witness :
  let evs := [Ev_start 2; Ev_elapse 2] in
  exists w, run (created 1700000000 0) evs = Some w /\
            _last_heartbeat (self w) = 0 /\
            fails_at_first_firing 1700000000 2 2.
Proof.
  intros evs.
  destruct (run (created 1700000000 0) evs) as [w|] eqn:Hrun;
    [|vm_compute in Hrun; discriminate].
  exists w. split; [reflexivity|].
  destruct (C10_epoch_age_at_first_check 1700000000 0 evs w 2 2) as (H0 & _ & Hf).
  - reflexivity.
  - exact Hrun.
  - vm_compute in Hrun. injection Hrun as <-. vm_compute. discriminate.
  - lia.
  - vm_compute. discriminate.
  - split; [exact H0|]. apply Hf. vm_compute. discriminate.
Defined.

(** C10 as stated fails whenever the interval is above the clock reading.
    On a machine whose clock was never set and reads 5, a checker started
    with interval 60 sees its first firing at 65, below the threshold of 120,
    and arms a new timer instead of reporting a failure.  The same happens
    with today's clock, 1 700 000 000, and an interval of 2 000 000 000. *)
Lemma C10_counterexample :
  run (created 5 0) [Ev_start 60; Ev_elapse 60; Ev_fire 0%nat] =
  Some (mkWorld 65 0 [] [mkTimer 60 65] (mkChecker 60 0 0 (Some (mkTimer 60 65)))) /\
  ~ fails_at_first_firing 5 60 60 /\
  run (created 1700000000 0)
      [Ev_start 2000000000; Ev_elapse 2000000000; Ev_fire 0%nat] =
  Some (mkWorld 3700000000 0 [] [mkTimer 2000000000 3700000000]
          (mkChecker 2000000000 0 0 (Some (mkTimer 2000000000 3700000000)))) /\
  ~ fails_at_first_firing 1700000000 2000000000 2000000000.
Proof.
  split; [vm_compute; reflexivity|]. split.
  { intros (w & Hrun & He & _). vm_compute in Hrun.
    injection Hrun as <-. discriminate He. }
  split; [vm_compute; reflexivity|].
  intros (w & Hrun & He & _). vm_compute in Hrun.
  injection Hrun as <-. discriminate He.
Qed.

(** ** Late callbacks *)

Lemma snoc_neq {A} (l : list A) (x : A) : l ++ [x] <> l.
Proof.
  intros H. apply (f_equal length) in H. rewrite length_app in H. cbn in H. lia.
Qed.

(** C9 as amended.  [Checker] has no teardown method and keeps no
    cancellation state; a callback that fires, however late, is never a
    no-op: it starts a new timer or puts a failure on the queue. *)
Theorem C9_callback_never_noop (w : World) :
  let w' := exec _check_for_heartbeat w in
  (armed w' <> armed w \/ exceptions w' <> exceptions w) /\
  ~ callback_is_noop w.
Proof.
  cbn zeta. unfold callback_is_noop.
  destruct (check_rearms_or_fails w) as [(Ha & _)|(_ & He & _)]; cbn zeta in *.
  - rewrite Ha. split; [left; apply snoc_neq|]. intros [_ H]. exact (snoc_neq _ _ H).
  - rewrite He. split; [right; apply snoc_neq|]. intros [H _]. exact (snoc_neq _ _ H).
Qed.

(** C9 as stated fails: a checker started with interval 2 hears one heartbeat
    a second later; whatever its connection does afterwards leaves no mark on
    it, and when its timer fires late, 10 after the start, the callback puts
    a failure on the queue. *)
Lemma C9_counterexample :
  exists w w',
    run (created 1700000000 0)
        [Ev_start 2; Ev_elapse 1; Ev_on_heartbeat; Ev_elapse 9] = Some w /\
    exceptions w = [] /\
    step w (Ev_fire 0%nat) = Some w' /\
    exceptions w' = [ConnectionResetException (No_heartbeat_in_seconds 9)] /\
    ~ callback_is_noop (disarm 0 w).
Proof.
  eexists. eexists. split; [vm_compute; reflexivity|].
  split; [reflexivity|]. split; [vm_compute; reflexivity|]. split; [reflexivity|].
  intros [He _]. vm_compute in He. discriminate He.
Qed.

(** ** Silence measured from the epoch *)

(** C1, on the code.  A fresh checker is started with interval 2 at clock
    reading 1 700 000 000; no heartbeat arrives and the byte counter stays
    at 0.  The first timer fires 2 after the start and already reports the
    failure, with an age of 1 700 000 002: [_last_heartbeat] is still the 0
    that [__init__] gave it. *)
Lemma C1_failure_one_interval_after_start :
  run (created 1700000000 0) [Ev_start 2; Ev_elapse 2; Ev_fire 0%nat] =
  Some (mkWorld 1700000002 0
          [ConnectionResetException (No_heartbeat_in_seconds 1700000002)] []
          (mkChecker 2 0 0 (Some (mkTimer 2 1700000000)))).
Proof. vm_compute. reflexivity. Qed.

(** The same silence on a connection whose counter was already above 0 at
    the start: the first check takes the traffic branch, the second one fails
    4 after the start, and the age it reports is again the clock reading. *)
Lemma silent_after_handshake :
  run (created 1700000000 512)
      [Ev_start 2; Ev_elapse 2; Ev_fire 0%nat; Ev_elapse 2; Ev_fire 0%nat] =
  Some (mkWorld 1700000004 512
          [ConnectionResetException (No_heartbeat_in_seconds 1700000004)] []
          (mkChecker 2 512 0 (Some (mkTimer 2 1700000002)))).
Proof. vm_compute. reflexivity. Qed.

(** C5, on the code.  Interval 2, no bytes, heartbeats 3, 6 and 9 after the
    start, so always less than 4 apart: the check 2 after the start has
    already put a failure on the queue. *)
Lemma C5_failure_before_first_heartbeat :
  exists w,
    run (created 1700000000 0)
        [Ev_start 2; Ev_elapse 2; Ev_fire 0%nat;
         Ev_elapse 1; Ev_on_heartbeat;
         Ev_elapse 3; Ev_on_heartbeat;
         Ev_elapse 3; Ev_on_heartbeat] = Some w /\
    exceptions w = [ConnectionResetException (No_heartbeat_in_seconds 1700000002)] /\
    armed w = [].
Proof. eexists. split; [vm_compute; reflexivity|]. split; reflexivity. Qed.

(** The scenario of the specification, in milliseconds: interval 2 s, a
    heartbeat every 1.5 s starting 1.5 s after the start, no bytes.  Five
    checks later, 10 s after the start, the queue is empty and one timer is
    armed. *)
Lemma heartbeat_every_1500ms_no_failure :
  exists w,
    run (created 1700000000000 0)
        [Ev_start 2000;
         Ev_elapse 1500; Ev_on_heartbeat; Ev_elapse 500; Ev_fire 0%nat;
         Ev_elapse 1000; Ev_on_heartbeat; Ev_elapse 1000; Ev_fire 0%nat;
         Ev_elapse 500; Ev_on_heartbeat; Ev_elapse 1500; Ev_on_heartbeat;
         Ev_fire 0%nat;
         Ev_elapse 1500; Ev_on_heartbeat; Ev_elapse 500; Ev_fire 0%nat;
         Ev_elapse 1000; Ev_on_heartbeat; Ev_elapse 1000; Ev_fire 0%nat] = Some w /\
    clock w = 1700000010000 /\
    exceptions w = [] /\
    armed w = [mkTimer 2000 1700000010000].
Proof. eexists. split; [vm_compute; reflexivity|]. repeat split. Qed.

(** * Further properties of the checker in its environment *)

(** ** What a step does to the clock and to the counters *)

Lemma step_clock w ev w' :
  step w ev = Some w' -> clock w' = clock w + elapsed [ev].
Proof.
  destruct ev as [i| |n|dt|k]; cbn [elapsed].
  - intros [= <-]. destruct (Z.eq_dec i 0) as [->|Hi].
    + rewrite exec_start_zero. cbn. lia.
    + rewrite (exec_start_nonzero i w Hi). cbn. lia.
  - intros [= <-]. cbn. lia.
  - intros [= <-]. cbn. lia.
  - intros [= <-]. cbn. lia.
  - intros Hs. apply step_fire_inv in Hs as (t & _ & _ & ->).
    rewrite check_keeps_clock. cbn. lia.
Qed.

Lemma run_clock evs : forall w w',
  run w evs = Some w' -> clock w' = clock w + elapsed evs.
Proof.
  induction evs as [|ev evs IH]; intros w w' Hrun; cbn [run] in Hrun.
  - injection Hrun as <-. cbn. lia.
  - destruct (step w ev) as [w1|] eqn:Hs; [|discriminate].
    rewrite (IH _ _ Hrun), (step_clock _ _ _ Hs).
    cbn [elapsed]. destruct ev; lia.
Qed.

Lemma check_last_bytes w :
  _last_bytes (self w) <= bytes_received w ->
  _last_bytes (self (exec _check_for_heartbeat w)) = bytes_received w /\
  bytes_received (exec _check_for_heartbeat w) = bytes_received w.
Proof. intros Hle. check_cases w; cbn; lia. Qed.

Lemma step_last_bytes w ev w' :
  0 <= _last_bytes (self w) <= bytes_received w ->
  step w ev = Some w' ->
  0 <= _last_bytes (self w') <= bytes_received w'.
Proof.
  intros Hinv. destruct ev as [i| |n|dt|k].
  - intros [= <-]. destruct (Z.eq_dec i 0) as [->|Hi].
    + rewrite exec_start_zero. cbn. lia.
    + rewrite (exec_start_nonzero i w Hi). cbn. lia.
  - intros [= <-]. cbn. lia.
  - intros [= <-]. cbn. lia.
  - intros [= <-]. cbn. lia.
  - intros Hs. apply step_fire_inv in Hs as (t & _ & _ & ->).
    destruct (check_last_bytes (disarm k w)) as [H1 H2]; [cbn; lia|].
    rewrite H1, H2. cbn. lia.
Qed.

Lemma last_bytes_below_counter now received evs w :
  0 <= received ->
  run (created now received) evs = Some w ->
  0 <= _last_bytes (self w) <= bytes_received w.
Proof.
  intros Hr Hrun.
  apply (run_invariant (fun w => 0 <= _last_bytes (self w) <= bytes_received w)
                       (fun _ => true)) with (evs := evs) (w := created now received);
    [ | | cbn; lia | exact Hrun].
  - intros w1 ev w2 _ Hinv Hs. exact (step_last_bytes w1 ev w2 Hinv Hs).
  - clear Hrun. induction evs as [|ev evs IH]; [reflexivity | exact IH].
Qed.

(** X7.  On a counter that starts non-negative, [_last_bytes] is never
    negative and never ahead of the counter, and right after any callback,
    whichever way it went, it equals the counter. *)
Theorem last_bytes_tracks_counter
    (now received : Z) (evs : list Event) (w : World) (k : nat) (w' : World) :
  0 <= received ->
  run (created now received) evs = Some w ->
  step w (Ev_fire k) = Some w' ->
  0 <= _last_bytes (self w) <= bytes_received w /\
  _last_bytes (self w') = bytes_received w'.
Proof.
  intros Hr Hrun Hs.
  pose proof (last_bytes_below_counter now received evs w Hr Hrun) as Hinv.
  split; [exact Hinv|].
  apply step_fire_inv in Hs as (t & _ & _ & ->).
  destruct (check_last_bytes (disarm k w)) as [H1 H2]; [cbn; lia|].
  now rewrite H1, H2.
Qed.

Lemma last_bytes_tracks_counter_witness :
  let evs := [Ev_bytes 40; Ev_start 2; Ev_on_heartbeat; Ev_elapse 2; Ev_bytes 2] in
  exists w w', run (created 1700000000 8) evs = Some w /\
               step w (Ev_fire 0%nat) = Some w' /\
               _last_bytes (self w') = bytes_received w'.
Proof.
  intros evs.
  destruct (run (created 1700000000 8) evs) as [w|] eqn:Hrun;
    [|vm_compute in Hrun; discriminate].
  destruct (step w (Ev_fire 0%nat)) as [w'|] eqn:Hs;
    [|vm_compute in Hrun; injection Hrun as <-; vm_compute in Hs; discriminate].
  exists w, w'. split; [reflexivity|]. split; [exact Hs|].
  apply (last_bytes_tracks_counter 1700000000 8 evs w 0%nat w'); [lia | exact Hrun | exact Hs].
Defined.

(** Without a callback in between, the queue and [_last_bytes] stay as they
    are while the counter adds up what arrives. *)
Lemma run_between_checks evs : forall w w',
  forallb (fun ev => negb (is_fire ev)) evs = true ->
  run w evs = Some w' ->
  exceptions w' = exceptions w /\
  _last_bytes (self w') = _last_bytes (self w) /\
  bytes_received w' = bytes_received w + arrived evs.
Proof.
  induction evs as [|ev evs IH]; intros w w' Hnf Hrun; cbn in Hnf; cbn [run] in Hrun.
  - injection Hrun as <-. cbn. repeat split; lia.
  - apply andb_prop in Hnf as [Hev Hnf].
    destruct (step w ev) as [w1|] eqn:Hs; [|discriminate].
    destruct (IH _ _ Hnf Hrun) as (He & Hl & Hb). rewrite He, Hl, Hb.
    destruct ev as [i| |n|dt|k]; cbn in Hev; try discriminate;
      cbn in Hs; injection Hs as <-.
    + destruct (Z.eq_dec i 0) as [->|Hi].
      * rewrite exec_start_zero. cbn. repeat split; lia.
      * rewrite (exec_start_nonzero i w Hi). cbn. repeat split; lia.
    + cbn. repeat split; lia.
    + cbn. repeat split; lia.
    + cbn. repeat split; lia.
Qed.

(** X4.  Bytes count as life.  If any bytes arrive after the latest callback,
    the next callback of any armed timer reports nothing and arms one timer
    in place of the one that fired, whether or not a heartbeat was ever
    heard and however large the clock reading is. *)
Theorem traffic_prevents_failure
    (now received : Z) (evs evs2 : list Event) (w w2 : World) (k : nat) (w' : World) :
  0 <= received ->
  run (created now received) evs = Some w ->
  forallb (fun ev => negb (is_fire ev)) evs2 = true ->
  0 < arrived evs2 ->
  run w evs2 = Some w2 ->
  step w2 (Ev_fire k) = Some w' ->
  exceptions w' = exceptions w2 /\
  length (armed w') = length (armed w2) /\
  _last_bytes (self w') = bytes_received w2.
Proof.
  intros Hr Hrun Hnf Harr Hrun2 Hs.
  pose proof (last_bytes_below_counter now received evs w Hr Hrun) as Hinv.
  destruct (run_between_checks evs2 w w2 Hnf Hrun2) as (_ & Hl & Hb).
  apply step_fire_inv in Hs as (t & Hk & _ & ->).
  assert (Hlt : _last_bytes (self (disarm k w2)) < bytes_received (disarm k w2))
    by (cbn; lia).
  unfold exec. rewrite (check_traffic _ Hlt). cbn.
  split; [reflexivity|]. split; [|reflexivity].
  rewrite length_app, length_delete by eauto. cbn.
  apply lookup_lt_Some in Hk. lia.
Qed.

Lemma traffic_prevents_failure_witness :
  let evs := [Ev_start 2; Ev_on_heartbeat; Ev_elapse 2; Ev_fire 0%nat] in
  let evs2 := [Ev_elapse 1; Ev_bytes 100; Ev_elapse 1] in
  exists w w2 w',
    run (created 5 0) evs = Some w /\ run w evs2 = Some w2 /\
    step w2 (Ev_fire 0%nat) = Some w' /\ exceptions w' = exceptions w2.
Proof.
  intros evs evs2. eexists. eexists. eexists.
  split; [vm_compute; reflexivity|].
  split; [vm_compute; reflexivity|].
  split; [vm_compute; reflexivity|].
  eapply (traffic_prevents_failure 5 0 evs evs2 _ _ 0%nat).
  - lia.
  - vm_compute. reflexivity.
  - reflexivity.
  - reflexivity.
  - vm_compute. reflexivity.
  - vm_compute. reflexivity.
Defined.

(** ** Heartbeats seen from the run *)

Lemma run_last_heartbeat evs : forall w w',
  _last_heartbeat (self w) <= clock w ->
  run w evs = Some w' ->
  _last_heartbeat (self w) <= _last_heartbeat (self w') /\
  _last_heartbeat (self w') <= clock w'.
Proof.
  induction evs as [|ev evs IH]; intros w w' Hinv Hrun; cbn [run] in Hrun.
  - injection Hrun as <-. lia.
  - destruct (step w ev) as [w1|] eqn:Hs; [|discriminate].
    destruct (step_last_heartbeat w ev w1 Hinv Hs) as [H1 H2].
    destruct (IH w1 w' H2 Hrun) as [H3 H4]. lia.
Qed.

Lemma step_keeps_last_heartbeat w ev w' :
  negb (is_heartbeat ev) = true ->
  step w ev = Some w' ->
  _last_heartbeat (self w') = _last_heartbeat (self w).
Proof.
  intros Hev. destruct ev as [i| |n|dt|k]; try discriminate.
  - intros [= <-]. destruct (Z.eq_dec i 0) as [->|Hi].
    + now rewrite exec_start_zero.
    + now rewrite (exec_start_nonzero i w Hi).
  - now intros [= <-].
  - now intros [= <-].
  - intros Hs. apply step_fire_inv in Hs as (t & _ & _ & ->).
    now rewrite check_keeps_last_heartbeat.
Qed.

Lemma run_keeps_last_heartbeat evs : forall w w',
  forallb (fun ev => negb (is_heartbeat ev)) evs = true ->
  run w evs = Some w' ->
  _last_heartbeat (self w') = _last_heartbeat (self w).
Proof.
  induction evs as [|ev evs IH]; intros w w' Hnh Hrun; cbn in Hnh; cbn [run] in Hrun.
  - now injection Hrun as <-.
  - apply andb_prop in Hnh as [Hev Hnh].
    destruct (step w ev) as [w1|] eqn:Hs; [|discriminate].
    rewrite (IH _ _ Hnh Hrun). exact (step_keeps_last_heartbeat w ev w1 Hev Hs).
Qed.

(** A callback that finds the last heartbeat young enough reports nothing. *)
Lemma check_alive w :
  clock w - _last_heartbeat (self w) < _interval (self w) * MAX_MISSED_HEARTBEATS ->
  exceptions (exec _check_for_heartbeat w) = exceptions w /\
  armed (exec _check_for_heartbeat w) =
    armed w ++ [mkTimer (_interval (self w)) (clock w)].
Proof. intros Hage. check_cases w; cbn; try lia; split; reflexivity. Qed.

Lemma fired_and_rearmed (l : list Timer) (k : nat) (t t' : Timer) :
  l !! k = Some t -> length (delete k l ++ [t']) = length l.
Proof.
  intros Hk. rewrite length_app, length_delete by eauto. cbn.
  apply lookup_lt_Some in Hk. lia.
Qed.

(** X5.  A heartbeat protects for two intervals.  After [on_heartbeat], in
    any state, a callback that runs while less than twice the stored
    interval has passed reports nothing and arms one timer in place of the
    one that fired, whatever else happened in between. *)
Theorem recent_heartbeat_prevents_failure
    (w0 : World) (evs : list Event) (w : World) (k : nat) (w' : World) :
  run w0 (Ev_on_heartbeat :: evs) = Some w ->
  elapsed evs < _interval (self w) * 2 ->
  step w (Ev_fire k) = Some w' ->
  exceptions w' = exceptions w /\ length (armed w') = length (armed w).
Proof.
  intros Hrun Hel Hs. cbn [run step] in Hrun.
  assert (Hhb : _last_heartbeat (self (exec on_heartbeat w0)) <= clock (exec on_heartbeat w0))
    by (rewrite exec_on_heartbeat; cbn; lia).
  destruct (run_last_heartbeat evs _ _ Hhb Hrun) as [Hmono _].
  pose proof (run_clock evs _ _ Hrun) as Hclock.
  rewrite exec_on_heartbeat in Hmono, Hclock. cbn in Hmono, Hclock.
  apply step_fire_inv in Hs as (t & Hk & _ & ->).
  destruct (check_alive (disarm k w)) as [He Ha].
  - cbn. unfold MAX_MISSED_HEARTBEATS. lia.
  - rewrite He, Ha. cbn. split; [reflexivity|].
    exact (fired_and_rearmed (armed w) k t _ Hk).
Qed.

Lemma recent_heartbeat_prevents_failure_witness :
  let evs := [Ev_elapse 1; Ev_start 2; Ev_elapse 2] in
  exists w w',
    run (created 1700000000 0) (Ev_on_heartbeat :: evs) = Some w /\
    step w (Ev_fire 0%nat) = Some w' /\ exceptions w' = exceptions w.
Proof.
  intros evs. eexists. eexists.
  split; [vm_compute; reflexivity|].
  split; [vm_compute; reflexivity|].
  eapply (recent_heartbeat_prevents_failure (created 1700000000 0) evs _ 0%nat).
  - vm_compute. reflexivity.
  - vm_compute. reflexivity.
  - vm_compute. reflexivity.
Defined.

(** X6.  Once a heartbeat has been heard, the age that is reported is the
    silence since it.  If no further heartbeat arrives and a callback that
    sees no new bytes runs when at least twice the stored interval has
    passed, it reports one failure carrying exactly the time elapsed since
    that heartbeat, and the timer that fired is not replaced. *)
Theorem stale_heartbeat_reported_with_true_age
    (w0 : World) (evs : list Event) (w : World) (k : nat) (w' : World) :
  run w0 (Ev_on_heartbeat :: evs) = Some w ->
  forallb (fun ev => negb (is_heartbeat ev)) evs = true ->
  bytes_received w <= _last_bytes (self w) ->
  _interval (self w) * 2 <= elapsed evs ->
  step w (Ev_fire k) = Some w' ->
  exceptions w' =
    exceptions w ++ [ConnectionResetException (No_heartbeat_in_seconds (elapsed evs))] /\
  armed w' = delete k (armed w).
Proof.
  intros Hrun Hnh Hb Hel Hs. cbn [run step] in Hrun.
  pose proof (run_keeps_last_heartbeat evs _ _ Hnh Hrun) as Hlh.
  pose proof (run_clock evs _ _ Hrun) as Hclock.
  rewrite exec_on_heartbeat in Hlh, Hclock. cbn in Hlh, Hclock.
  apply step_fire_inv in Hs as (t & Hk & _ & ->).
  assert (Hage : clock (disarm k w) - _last_heartbeat (self (disarm k w)) = elapsed evs)
    by (cbn; lia).
  unfold exec. rewrite (check_silent_expired (disarm k w)).
  - cbn -[Z.sub]. cbn -[Z.sub] in Hage. rewrite Hage. split; reflexivity.
  - exact Hb.
  - rewrite Hage. cbn. unfold MAX_MISSED_HEARTBEATS. lia.
Qed.

Lemma stale_heartbeat_reported_witness :
  let evs := [Ev_start 2; Ev_elapse 2; Ev_fire 0%nat; Ev_elapse 2] in
  exists w w',
    run (created 1700000000 0) (Ev_on_heartbeat :: evs) = Some w /\
    step w (Ev_fire 0%nat) = Some w' /\
    exceptions w' =
      exceptions w ++ [ConnectionResetException (No_heartbeat_in_seconds (elapsed evs))] /\
    armed w' = delete 0%nat (armed w).
Proof.
  intros evs. eexists. eexists.
  split; [vm_compute; reflexivity|].
  split; [vm_compute; reflexivity|].
  eapply (stale_heartbeat_reported_with_true_age (created 1700000000 0) evs _ 0%nat).
  - vm_compute. reflexivity.
  - reflexivity.
  - vm_compute. discriminate.
  - vm_compute. discriminate.
  - vm_compute. reflexivity.
Defined.

(** ** Timers and failures of a whole run *)

(** X1.  Timers are neither lost nor multiplied: after any run of a fresh
    checker, the timers still armed plus the failures reported are exactly
    as many as the [start] calls with a non-zero interval.  Each such call
    opens one chain of callbacks, and a chain ends only in a failure. *)
Theorem timers_and_failures_count_starts
    (now received : Z) (evs : list Event) (w : World) :
  run (created now received) evs = Some w ->
  (length (armed w) + length (exceptions w))%nat = armings evs.
Proof.
  intros Hrun. pose proof (run_budget evs _ _ Hrun) as Hb.
  unfold budget in Hb. cbn in Hb. lia.
Qed.

Lemma timers_and_failures_witness :
  let evs := [Ev_start 2; Ev_start 0; Ev_start 3; Ev_elapse 2; Ev_fire 0%nat] in
  exists w, run (created 1700000000 0) evs = Some w /\
            (length (armed w) + length (exceptions w))%nat = 2%nat.
Proof.
  intros evs. eexists. split; [vm_compute; reflexivity|].
  apply (timers_and_failures_count_starts 1700000000 0 evs).
  vm_compute. reflexivity.
Defined.

(** X8.  A failure is final.  Once a checker that was started at most once
    has reported a failure, no timer is armed and no callback can run any
    more, so later heartbeats or bytes do not bring it back. *)
Theorem failed_checker_is_dead
    (now received : Z) (evs : list Event) (w : World) (k : nat) :
  (starts evs <= 1)%nat ->
  run (created now received) evs = Some w ->
  exceptions w <> [] ->
  armed w = [] /\ step w (Ev_fire k) = None.
Proof.
  intros Hs Hrun Hne.
  pose proof (single_start_budget _ _ _ _ Hs Hrun) as Hb. unfold budget in Hb.
  assert (Ha : armed w = []).
  { destruct (exceptions w); [contradiction|].
    destruct (armed w); [reflexivity | cbn in Hb; lia]. }
  split; [exact Ha|]. cbn. now rewrite Ha.
Qed.

Lemma failed_checker_is_dead_witness :
  let evs := [Ev_start 2; Ev_elapse 2; Ev_fire 0%nat; Ev_on_heartbeat; Ev_bytes 9] in
  exists w, run (created 1700000000 0) evs = Some w /\
            armed w = [] /\ step w (Ev_fire 0%nat) = None.
Proof.
  intros evs. eexists. split; [vm_compute; reflexivity|].
  apply (failed_checker_is_dead 1700000000 0 evs).
  - vm_compute. apply le_n.
  - vm_compute. reflexivity.
  - vm_compute. discriminate.
Defined.

Lemma step_ages w ev w' (i : Z) :
  negb (is_start ev) = true ->
  _interval (self w) = i /\ Forall (fun e => 2 * i <= age_of e) (exceptions w) ->
  step w ev = Some w' ->
  _interval (self w') = i /\ Forall (fun e => 2 * i <= age_of e) (exceptions w').
Proof.
  intros Hev [Hi Hall]. destruct ev as [j| |n|dt|k]; try discriminate.
  - now intros [= <-].
  - now intros [= <-].
  - now intros [= <-].
  - intros Hs. apply step_fire_inv in Hs as (t & _ & _ & ->).
    check_cases (disarm k w); cbn; cbn in Ha || idtac; (split; [exact Hi|]);
      try exact Hall.
    apply Forall_app. split; [exact Hall|]. constructor; [|constructor].
    cbn. unfold MAX_MISSED_HEARTBEATS in Ha. lia.
Qed.

(** X2.  Every failure on the queue of a checker started once with interval
    [i] carries an age of at least [2 * i]. *)
Theorem failure_ages_reach_threshold
    (now received i : Z) (evs : list Event) (w : World) :
  starts evs = 0%nat ->
  run (created now received) (Ev_start i :: evs) = Some w ->
  Forall (fun e => 2 * i <= age_of e) (exceptions w).
Proof.
  intros Hs Hrun.
  change (run (exec (start i) (created now received)) evs = Some w) in Hrun.
  apply (run_invariant
           (fun w => _interval (self w) = i /\
                     Forall (fun e => 2 * i <= age_of e) (exceptions w))
           (fun ev => negb (is_start ev))
           (fun w1 ev w2 => step_ages w1 ev w2 i) evs
           (exec (start i) (created now received)) w
           (starts_zero_forallb evs Hs)); [|exact Hrun].
  destruct (Z.eq_dec i 0) as [->|Hi].
  - rewrite exec_start_zero. cbn. split; [reflexivity | constructor].
  - rewrite (exec_start_nonzero i _ Hi). cbn. split; [reflexivity | constructor].
Qed.

Lemma failure_ages_witness :
  let evs := [Ev_on_heartbeat; Ev_elapse 3; Ev_fire 0%nat; Ev_elapse 3; Ev_fire 0%nat] in
  exists w, run (created 1700000000 0) (Ev_start 3 :: evs) = Some w /\
            exceptions w = [ConnectionResetException (No_heartbeat_in_seconds 6)] /\
            Forall (fun e => 2 * 3 <= age_of e) (exceptions w).
Proof.
  intros evs. eexists. split; [vm_compute; reflexivity|]. split; [reflexivity|].
  apply (failure_ages_reach_threshold 1700000000 0 3 evs).
  - reflexivity.
  - vm_compute. reflexivity.
Defined.

(** ** A connection that stays silent *)

(** X3.  A fresh checker on a connection that stays silent (no heartbeat, no
    byte after its creation) reports the failure at its second callback at
    the latest: either the first callback reports it and arms nothing, or it
    reports nothing and the second one does.  This holds for every positive
    interval, every non-negative clock reading and counter, and however late
    the timers fire. *)
Theorem silent_connection_reported_by_second_check
    (now received i : Z) (dt1 dt2 : N) :
  0 <= now -> 0 <= received -> 0 < i ->
  i <= Z.of_N dt1 -> i <= Z.of_N dt2 ->
  (exists w1,
      run (created now received) [Ev_start i; Ev_elapse dt1; Ev_fire 0%nat] = Some w1 /\
      exceptions w1 =
        [ConnectionResetException (No_heartbeat_in_seconds (now + Z.of_N dt1))] /\
      armed w1 = []) \/
  (exists w1 w2,
      run (created now received) [Ev_start i; Ev_elapse dt1; Ev_fire 0%nat] = Some w1 /\
      exceptions w1 = [] /\
      run w1 [Ev_elapse dt2; Ev_fire 0%nat] = Some w2 /\
      exceptions w2 =
        [ConnectionResetException
           (No_heartbeat_in_seconds (now + Z.of_N dt1 + Z.of_N dt2))] /\
      armed w2 = []).
Proof.
  intros Hnow Hr Hi H1 H2.
  assert (Hi0 : i <> 0) by lia.
  set (t0 := mkTimer i now).
  set (wa := mkWorld (now + Z.of_N dt1) received [] [] (mkChecker i 0 0 (Some t0))).
  assert (Hfirst : run (created now received) [Ev_start i; Ev_elapse dt1; Ev_fire 0%nat]
                   = Some (exec _check_for_heartbeat wa)).
  { unfold run, step. rewrite (exec_start_nonzero i _ Hi0).
    cbn -[_check_for_heartbeat Z.add Z.leb]. unfold due.
    cbn -[_check_for_heartbeat Z.add Z.leb].
    destruct (Z.leb_spec (now + i) (now + Z.of_N dt1)); [reflexivity | lia]. }
  rewrite Hfirst.
  (* the second callback, from a state the first one left alive *)
  assert (Hsecond : forall lb,
             received <= lb ->
             let t1 := mkTimer i (now + Z.of_N dt1) in
             let w1 := mkWorld (now + Z.of_N dt1) received [] [t1]
                               (mkChecker i lb 0 (Some t1)) in
             exists w2, run w1 [Ev_elapse dt2; Ev_fire 0%nat] = Some w2 /\
               exceptions w2 =
                 [ConnectionResetException
                    (No_heartbeat_in_seconds (now + Z.of_N dt1 + Z.of_N dt2))] /\
               armed w2 = []).
  { intros lb Hlb t1 w1. eexists. split.
    - unfold run, step. cbn -[_check_for_heartbeat Z.add Z.leb]. unfold due.
      cbn -[_check_for_heartbeat Z.add Z.leb].
      destruct (Z.leb_spec (now + Z.of_N dt1 + i) (now + Z.of_N dt1 + Z.of_N dt2));
        [reflexivity | lia].
    - unfold exec. rewrite check_silent_expired;
        [ | cbn; lia | cbn; unfold MAX_MISSED_HEARTBEATS; lia].
      cbn. rewrite Z.sub_0_r. split; reflexivity. }
  unfold exec.
  destruct (Z.lt_ge_cases 0 received) as [Hpos|Hzero].
  - right. rewrite (check_traffic wa) by (cbn; lia). cbn.
    destruct (Hsecond received ltac:(lia)) as (w2 & Hrun2 & He2 & Ha2).
    eexists. exists w2. split; [reflexivity|]. split; [reflexivity|].
    split; [exact Hrun2|]. split; [exact He2 | exact Ha2].
  - destruct (Z.le_gt_cases (2 * i) (now + Z.of_N dt1)) as [Hold|Hyoung].
    + left. rewrite (check_silent_expired wa);
        [ | cbn; lia | cbn; unfold MAX_MISSED_HEARTBEATS; lia].
      cbn. rewrite Z.sub_0_r. eexists. split; [reflexivity|]. split; reflexivity.
    + right. rewrite (check_silent_alive wa);
        [ | cbn; lia | cbn; unfold MAX_MISSED_HEARTBEATS; lia].
      cbn.
      destruct (Hsecond 0 ltac:(lia)) as (w2 & Hrun2 & He2 & Ha2).
      eexists. exists w2. split; [reflexivity|]. split; [reflexivity|].
      split; [exact Hrun2|]. split; [exact He2 | exact Ha2].
Qed.

Lemma silent_connection_witness :
  exists w1 w2,
    run (created 1700000000 512) [Ev_start 2; Ev_elapse 2; Ev_fire 0%nat] = Some w1 /\
    run w1 [Ev_elapse 3; Ev_fire 0%nat] = Some w2 /\
    exceptions w2 = [ConnectionResetException (No_heartbeat_in_seconds 1700000005)].
Proof.
  destruct (silent_connection_reported_by_second_check 1700000000 512 2 2 3)
    as [(w1 & Hrun & He & _)|(w1 & w2 & Hrun & _ & Hrun2 & He2 & _)];
    try lia.
  - exfalso. vm_compute in Hrun. injection Hrun as <-. discriminate He.
  - exists w1, w2. split; [exact Hrun|]. split; [exact Hrun2 | exact He2].
Defined.

(** X10.  A negative interval is truthy, so [start] arms a timer with it; the
    timer is due at once, and on a connection with no new bytes its callback
    reports a failure without any time having passed. *)
Theorem negative_interval_fails_at_once (w0 : World) (i : Z) :
  i < 0 ->
  armed w0 = [] ->
  _last_heartbeat (self w0) <= clock w0 ->
  bytes_received w0 <= _last_bytes (self w0) ->
  exists w,
    run w0 [Ev_start i; Ev_fire 0%nat] = Some w /\
    clock w = clock w0 /\
    exceptions w =
      exceptions w0 ++
      [ConnectionResetException
         (No_heartbeat_in_seconds (clock w0 - _last_heartbeat (self w0)))] /\
    armed w = [].
Proof.
  intros Hi Ha Hlh Hb. assert (Hi0 : i <> 0) by lia.
  eexists. split.
  - unfold run, step. rewrite (exec_start_nonzero i _ Hi0), Ha.
    cbn -[_check_for_heartbeat Z.add Z.leb]. unfold due.
    cbn -[_check_for_heartbeat Z.add Z.leb].
    destruct (Z.leb_spec (clock w0 + i) (clock w0)); [reflexivity | lia].
  - unfold exec. rewrite check_silent_expired;
      [ | cbn; lia | cbn; unfold MAX_MISSED_HEARTBEATS; lia].
    cbn. repeat split.
Qed.

Lemma negative_interval_witness :
  exists w,
    run (created 1700000000 0) [Ev_start (-5); Ev_fire 0%nat] = Some w /\
    clock w = 1700000000 /\
    exceptions w = [ConnectionResetException (No_heartbeat_in_seconds 1700000000)].
Proof.
  destruct (negative_interval_fails_at_once (created 1700000000 0) (-5))
    as (w & Hrun & Hc & He & _).
  - lia.
  - reflexivity.
  - vm_compute. discriminate.
  - vm_compute. discriminate.
  - exists w. split; [exact Hrun|]. split; [exact Hc | exact He].
Defined.

(** ** The timer handle *)

Lemma idle_armed w ev w' :
  negb (is_start ev) = true ->
  armed w = [] ->
  step w ev = Some w' ->
  armed w' = [].
Proof.
  intros Hev Ha. destruct ev as [i| |n|dt|k]; try discriminate.
  - now intros [= <-].
  - now intros [= <-].
  - now intros [= <-].
  - cbn. rewrite Ha. discriminate.
Qed.

Lemma step_handle w ev w' :
  (is_start ev = true -> armed w = []) ->
  handle_on_armed w ->
  step w ev = Some w' ->
  handle_on_armed w'.
Proof.
  intros Hfresh Hinv. destruct ev as [i| |n|dt|k].
  - intros [= <-]. specialize (Hfresh eq_refl).
    destruct (Z.eq_dec i 0) as [->|Hi].
    + left. rewrite exec_start_zero. exact Hfresh.
    + right. rewrite (exec_start_nonzero i w Hi), Hfresh. cbn.
      eexists. repeat split. cbn. lia.
  - intros [= <-]. destruct Hinv as [Ha|(t & Ha & Hh & Hi & Hc)]; [now left|].
    right. exists t. cbn. auto.
  - intros [= <-]. destruct Hinv as [Ha|(t & Ha & Hh & Hi & Hc)]; [now left|].
    right. exists t. cbn. auto.
  - intros [= <-]. destruct Hinv as [Ha|(t & Ha & Hh & Hi & Hc)]; [now left|].
    right. exists t. cbn. repeat split; auto. lia.
  - intros Hs. apply step_fire_inv in Hs as (t & Hk & _ & ->).
    assert (Hnone : armed (disarm k w) = []).
    { destruct Hinv as [Ha|(t1 & Ha & _)]; rewrite Ha in Hk; [discriminate|].
      cbn. rewrite Ha. destruct k as [|k]; [reflexivity | discriminate]. }
    cbn in Hnone. unfold handle_on_armed.
    check_cases (disarm k w); cbn; rewrite Hnone.
    + right. eexists. repeat split. cbn. lia.
    + now left.
    + right. eexists. repeat split. cbn. lia.
Qed.

Lemma run_handle evs : forall w w',
  (starts evs <= 1)%nat ->
  (starts evs = 1%nat -> armed w = []) ->
  handle_on_armed w ->
  run w evs = Some w' ->
  handle_on_armed w'.
Proof.
  induction evs as [|ev evs IH]; intros w w' Hs Hfresh Hinv Hrun; cbn [run] in Hrun.
  - now injection Hrun as <-.
  - destruct (step w ev) as [w1|] eqn:Hstep; [|discriminate].
    unfold starts in Hs, Hfresh. cbn in Hs, Hfresh.
    destruct (is_start ev) eqn:Hev; cbn in Hs, Hfresh.
    + apply (IH w1 w'); [unfold starts; lia | unfold starts; lia | | exact Hrun].
      apply (step_handle w ev w1); [|exact Hinv | exact Hstep].
      intros _. apply Hfresh. lia.
    + apply (IH w1 w'); [exact Hs | | | exact Hrun].
      * intros H1. apply (idle_armed w ev w1); [now rewrite Hev | auto | exact Hstep].
      * apply (step_handle w ev w1); [|exact Hinv | exact Hstep].
        rewrite Hev. discriminate.
Qed.

(** X11.  The handle is good for cancelling.  In every run of a checker
    started at most once, if a timer is armed then it is the only one, the
    attribute [_heartbeat_timer] refers to it, it was started with the
    stored interval, and not in the future. *)
Theorem handle_refers_to_armed_timer
    (now received : Z) (evs : list Event) (w : World) :
  (starts evs <= 1)%nat ->
  run (created now received) evs = Some w ->
  handle_on_armed w.
Proof.
  intros Hs Hrun.
  apply (run_handle evs (created now received) w Hs); [reflexivity | now left | exact Hrun].
Qed.

Lemma handle_refers_witness :
  let evs := [Ev_bytes 7; Ev_start 2; Ev_elapse 2; Ev_fire 0%nat; Ev_elapse 1] in
  exists w, run (created 1700000000 0) evs = Some w /\ handle_on_armed w.
Proof.
  intros evs. eexists. split; [vm_compute; reflexivity|].
  apply (handle_refers_to_armed_timer 1700000000 0 evs).
  - vm_compute. apply le_n.
  - vm_compute. reflexivity.
Defined.

(** ** Reconfiguring a running checker *)

Lemma step_keeps_interval w ev w' :
  negb (is_start ev) = true ->
  step w ev = Some w' ->
  _interval (self w') = _interval (self w).
Proof.
  intros Hev. destruct ev as [i| |n|dt|k]; try discriminate.
  - now intros [= <-].
  - now intros [= <-].
  - now intros [= <-].
  - intros Hs. apply step_fire_inv in Hs as (t & _ & _ & ->).
    check_cases (disarm k w); reflexivity.
Qed.

Lemma run_keeps_interval evs : forall w w',
  forallb (fun ev => negb (is_start ev)) evs = true ->
  run w evs = Some w' ->
  _interval (self w') = _interval (self w).
Proof.
  induction evs as [|ev evs IH]; intros w w' Hns Hrun; cbn in Hns; cbn [run] in Hrun.
  - now injection Hrun as <-.
  - apply andb_prop in Hns as [Hev Hns].
    destruct (step w ev) as [w1|] eqn:Hs; [|discriminate].
    rewrite (IH _ _ Hns Hrun). exact (step_keeps_interval w ev w1 Hev Hs).
Qed.

(** X12.  [start(0)] does not switch a running checker off.  It arms nothing
    new, but a timer armed earlier stays armed, and with the interval now 0
    its callback reports a failure as soon as it sees no new bytes, however
    recent the last heartbeat is. *)
Theorem start_zero_does_not_disarm
    (w0 : World) (evs : list Event) (w : World) (k : nat) (w' : World) :
  _last_heartbeat (self w0) <= clock w0 ->
  forallb (fun ev => negb (is_start ev)) evs = true ->
  run w0 (Ev_start 0 :: evs) = Some w ->
  bytes_received w <= _last_bytes (self w) ->
  step w (Ev_fire k) = Some w' ->
  armed (exec (start 0) w0) = armed w0 /\
  exceptions w' =
    exceptions w ++
    [ConnectionResetException
       (No_heartbeat_in_seconds (clock w - _last_heartbeat (self w)))] /\
  armed w' = delete k (armed w).
Proof.
  intros Hlh Hns Hrun Hb Hs. split; [reflexivity|].
  change (run (exec (start 0) w0) evs = Some w) in Hrun.
  pose proof (run_keeps_interval evs _ _ Hns Hrun) as Hi.
  destruct (run_last_heartbeat evs (exec (start 0) w0) w) as [_ Hpast];
    [rewrite exec_start_zero; exact Hlh | exact Hrun |].
  rewrite exec_start_zero in Hi. cbn in Hi.
  apply step_fire_inv in Hs as (t & _ & _ & ->).
  unfold exec. rewrite (check_silent_expired (disarm k w));
    [ | exact Hb | cbn; rewrite Hi; lia].
  cbn. split; reflexivity.
Qed.

Lemma start_zero_does_not_disarm_witness :
  let evs := [Ev_elapse 1; Ev_on_heartbeat; Ev_elapse 1] in
  let w0 := exec (start 2) (created 1700000000 0) in
  exists w w',
    run w0 (Ev_start 0 :: evs) = Some w /\
    step w (Ev_fire 0%nat) = Some w' /\
    armed (exec (start 0) w0) = armed w0 /\
    exceptions w' =
      exceptions w ++
      [ConnectionResetException
         (No_heartbeat_in_seconds (clock w - _last_heartbeat (self w)))] /\
    armed w' = delete 0%nat (armed w).
Proof.
  intros evs w0. eexists. eexists.
  split; [vm_compute; reflexivity|].
  split; [vm_compute; reflexivity|].
  eapply (start_zero_does_not_disarm w0 evs _ 0%nat).
  - vm_compute. discriminate.
  - reflexivity.
  - vm_compute. reflexivity.
  - vm_compute. discriminate.
  - vm_compute. reflexivity.
Defined.

(** ** The lock *)

(** X9.  Whatever the state and whichever path is taken, each method takes
    the lock only when it is free, assigns [_last_bytes] and
    [_last_heartbeat] only while holding it, leaves it free at the end, and
    neither puts on the queue nor starts a timer thread while holding it. *)
Theorem lock_discipline (i : Z) (w : World) :
  (guarded false (actions on_heartbeat w) = true /\
   calls_outside_lock false (actions on_heartbeat w) = true) /\
  (guarded false (actions (start i) w) = true /\
   calls_outside_lock false (actions (start i) w) = true) /\
  (guarded false (actions _check_for_heartbeat w) = true /\
   calls_outside_lock false (actions _check_for_heartbeat w) = true).
Proof.
  split; [split; reflexivity|]. split.
  - unfold actions. destruct (Z.eq_dec i 0) as [->|Hi].
    + rewrite start_zero. split; reflexivity.
    + rewrite (start_nonzero i w Hi). split; reflexivity.
  - check_cases w; split; reflexivity.
Qed.

(** ** Starting twice *)

Lemma fire_expired w k t :
  armed w !! k = Some t ->
  due t <= clock w ->
  bytes_received w <= _last_bytes (self w) ->
  _interval (self w) * 2 <= clock w - _last_heartbeat (self w) ->
  step w (Ev_fire k) =
  Some (mkWorld (clock w) (bytes_received w)
          (exceptions w ++
           [ConnectionResetException
              (No_heartbeat_in_seconds (clock w - _last_heartbeat (self w)))])
          (delete k (armed w)) (self w)).
Proof.
  intros Hk Hdue Hb Hold. unfold step. rewrite Hk.
  destruct (Z.leb_spec (due t) (clock w)); [|lia].
  unfold exec. rewrite (check_silent_expired (disarm k w));
    [reflexivity | exact Hb | exact Hold].
Qed.

(** X13.  [start] does not look for a timer that is already armed.  Two
    [start] calls with positive intervals on a fresh, silent checker arm two
    timers, both callbacks run, each against the interval stored last, and
    the queue ends up with two failures carrying the same age. *)
Theorem second_start_doubles_the_failure (now i j : Z) (dt : N) :
  0 < i -> 0 < j ->
  i <= Z.of_N dt -> j <= Z.of_N dt ->
  2 * j <= now + Z.of_N dt ->
  exists w,
    run (created now 0)
        [Ev_start i; Ev_start j; Ev_elapse dt; Ev_fire 0%nat; Ev_fire 0%nat] = Some w /\
    exceptions w =
      [ConnectionResetException (No_heartbeat_in_seconds (now + Z.of_N dt));
       ConnectionResetException (No_heartbeat_in_seconds (now + Z.of_N dt))] /\
    armed w = [].
Proof.
  intros Hi Hj Hdi Hdj Hold.
  assert (Hi0 : i <> 0) by lia. assert (Hj0 : j <> 0) by lia.
  set (ti := mkTimer i now). set (tj := mkTimer j now).
  set (wa := mkWorld (now + Z.of_N dt) 0 [] [ti; tj] (mkChecker j 0 0 (Some tj))).
  assert (Ha : run (created now 0) [Ev_start i; Ev_start j; Ev_elapse dt] = Some wa).
  { unfold run, step.
    rewrite (exec_start_nonzero i _ Hi0), (exec_start_nonzero j _ Hj0). reflexivity. }
  change [Ev_start i; Ev_start j; Ev_elapse dt; Ev_fire 0%nat; Ev_fire 0%nat]
    with ([Ev_start i; Ev_start j; Ev_elapse dt] ++ [Ev_fire 0%nat; Ev_fire 0%nat]).
  rewrite run_app, Ha. cbn [run].
  rewrite (fire_expired wa 0%nat ti) by first [reflexivity | unfold due; cbn; lia].
  match goal with |- context [step ?w _] => set (wb := w) end.
  rewrite (fire_expired wb 0%nat tj) by first [reflexivity | unfold due; cbn; lia].
  eexists. split; [reflexivity|]. cbn. rewrite Z.sub_0_r. split; reflexivity.
Qed.

Lemma second_start_witness :
  exists w,
    run (created 1700000000 0)
        [Ev_start 2; Ev_start 3; Ev_elapse 3; Ev_fire 0%nat; Ev_fire 0%nat] = Some w /\
    length (exceptions w) = 2%nat.
Proof.
  destruct (second_start_doubles_the_failure 1700000000 2 3 3)
    as (w & Hrun & He & _); try lia.
  exists w. split; [exact Hrun|]. now rewrite He.
Defined.
